(** * a5utils: bilinear sampling and the interactive point picker

    A shallow embedding of [a5utils.py].

    - [bilinear_interpolate] is embedded statement by statement over
      one-dimensional arrays (lists).  Floating-point numbers are modelled
      by exact rationals [Q] (so NaN, infinities and rounding are outside
      the model), numpy integers by unbounded [Z] (the cast
      [astype(int)] is only modelled where the value fits the integer
      type).  An exception raised by numpy (an index out of bounds, shapes
      that do not broadcast) is the result [None].
    - a second, store-passing embedding of the same function makes the numpy
      objects explicit (every array lives at a location of a heap, and the
      warnings numpy issues go to a log) so that what the call changes and
      what it outputs can be stated.
    - [SelectPoints] is embedded as a record for the instance state together
      with the part of the canvas it talks to (the callback registry); what
      matplotlib does to the view when [__init__] plots its placeholder
      point is a parameter.
    - [select_k_points] and [display_movie] are embedded over the same
      records.  *)

From Stdlib Require Import ZArith QArith Qround Lia Lqa.
From Stdlib Require DecimalString.
From stdpp Require Import base option list gmap strings.

Local Open Scope Z_scope.

(** ** numpy primitives used by the source *)

Module Np.

(** A 2-D float array, stored as its list of rows.  numpy arrays are
    rectangular by construction: [rectangular] is the representation
    invariant. *)
Abbreviation ndarray2 := (list (list Q)).

Definition shape0 (image : ndarray2) : Z := Z.of_nat (length image).
Definition shape1 (image : ndarray2) : Z :=
  match image with
  | [] => 0
  | row :: _ => Z.of_nat (length row)
  end.

Definition rectangular (image : ndarray2) : Prop :=
  Forall (fun row => Z.of_nat (length row) = shape1 image) image.

(** [np.floor] keeps the float type; [astype(int)] truncates towards zero. *)
Definition floor (x : list Q) : list Q := (fun q => inject_Z (Qfloor q)) <$> x.

Definition trunc (q : Q) : Z := if Qle_bool 0 q then Qfloor q else Qceiling q.
Definition astype_int (x : list Q) : list Z := trunc <$> x.

(** [a + k] for an integer array and a Python int. *)
Definition add_scalar (a : list Z) (k : Z) : list Z := (fun v => v + k) <$> a.

(** [np.clip(a, lo, hi)] is [minimum(maximum(a, lo), hi)]. *)
Definition clip1 (v lo hi : Z) : Z := Z.min (Z.max v lo) hi.
Definition clip (a : list Z) (lo hi : Z) : list Z :=
  (fun v => clip1 v lo hi) <$> a.

(** Broadcasting of two 1-D arrays: equal lengths pair up elementwise, a
    length-one array is stretched, anything else is an error. *)
Definition broadcast {A B} (a : list A) (b : list B) : option (list (A * B)) :=
  if decide (length a = length b) then Some (zip a b)
  else match a, b with
       | [u], _ => Some ((fun v => (u, v)) <$> b)
       | _, [v] => Some ((fun u => (u, v)) <$> a)
       | _, _ => None
       end.

Definition binop {A B C} (f : A -> B -> C) (a : list A) (b : list B)
  : option (list C) :=
  l ← broadcast a b; Some ((fun p => f p.1 p.2) <$> (l : list (A * B))).

(** An index [i] on an axis of size [n]: negative indices count from the
    end, anything outside [-n, n) raises IndexError. *)
Definition norm_index (n i : Z) : option nat :=
  if decide (0 <= i < n) then Some (Z.to_nat i)
  else if decide (- n <= i < 0) then Some (Z.to_nat (i + n))
  else None.

(** [image[r, c]] for two integers. *)
Definition item (image : ndarray2) (r c : Z) : option Q :=
  i ← norm_index (shape0 image) r;
  j ← norm_index (shape1 image) c;
  row ← image !! i;
  row !! j.

(** [image[rs, cs]] for two integer arrays (fancy indexing): the index
    arrays are broadcast against each other and looked up pairwise. *)
Definition fancy_index (image : ndarray2) (rs cs : list Z) : option (list Q) :=
  idx ← broadcast rs cs;
  mapM (fun p => item image p.1 p.2) idx.

(** Mixed arithmetic promotes the integer operand to float. *)
Definition int_sub_float (i : Z) (q : Q) : Q := (inject_Z i - q)%Q.
Definition float_sub_int (q : Q) (i : Z) : Q := (q - inject_Z i)%Q.

End Np.

(** ** bilinear_interpolate (a5utils.py, lines 5-53) *)

Definition bilinear_interpolate (image : Np.ndarray2) (x y : list Q)
  : option (list Q) :=
  (* indices of the 4 neighbours *)
  let x0 := Np.astype_int (Np.floor x) in
  let x1 := Np.add_scalar x0 1 in
  let y0 := Np.astype_int (Np.floor y) in
  let y1 := Np.add_scalar y0 1 in
  (* the same names are rebound to the clipped arrays *)
  let x0 := Np.clip x0 0 (Np.shape1 image - 1) in
  let x1 := Np.clip x1 0 (Np.shape1 image - 1) in
  let y0 := Np.clip y0 0 (Np.shape0 image - 1) in
  let y1 := Np.clip y1 0 (Np.shape0 image - 1) in
  (* values of the 4 neighbours *)
  Ia ← Np.fancy_index image y0 x0;
  Ib ← Np.fancy_index image y1 x0;
  Ic ← Np.fancy_index image y0 x1;
  Id ← Np.fancy_index image y1 x1;
  (* interpolation weights *)
  x1x ← Np.binop Np.int_sub_float x1 x;
  y1y ← Np.binop Np.int_sub_float y1 y;
  wa ← Np.binop Qmult x1x y1y;
  x1x ← Np.binop Np.int_sub_float x1 x;
  yy0 ← Np.binop Np.float_sub_int y y0;
  wb ← Np.binop Qmult x1x yy0;
  xx0 ← Np.binop Np.float_sub_int x x0;
  y1y ← Np.binop Np.int_sub_float y1 y;
  wc ← Np.binop Qmult xx0 y1y;
  xx0 ← Np.binop Np.float_sub_int x x0;
  yy0 ← Np.binop Np.float_sub_int y y0;
  wd ← Np.binop Qmult xx0 yy0;
  (* weighted combination *)
  Iawa ← Np.binop Qmult Ia wa;
  Ibwb ← Np.binop Qmult Ib wb;
  s1 ← Np.binop Qplus Iawa Ibwb;
  Icwc ← Np.binop Qmult Ic wc;
  s2 ← Np.binop Qplus s1 Icwc;
  Idwd ← Np.binop Qmult Id wd;
  Np.binop Qplus s2 Idwd.

(** The body of [bilinear_interpolate] at a single query point: this is
    what the vectorised statements compute at every position of the batch
    (see [bilinear_interpolate_zip]). *)
Definition interp_at (image : Np.ndarray2) (x y : Q) : option Q :=
  let x0 := Qfloor x in
  let x1 := x0 + 1 in
  let y0 := Qfloor y in
  let y1 := y0 + 1 in
  let x0 := Np.clip1 x0 0 (Np.shape1 image - 1) in
  let x1 := Np.clip1 x1 0 (Np.shape1 image - 1) in
  let y0 := Np.clip1 y0 0 (Np.shape0 image - 1) in
  let y1 := Np.clip1 y1 0 (Np.shape0 image - 1) in
  Ia ← Np.item image y0 x0;
  Ib ← Np.item image y1 x0;
  Ic ← Np.item image y0 x1;
  Id ← Np.item image y1 x1;
  let wa := (Np.int_sub_float x1 x * Np.int_sub_float y1 y)%Q in
  let wb := (Np.int_sub_float x1 x * Np.float_sub_int y y0)%Q in
  let wc := (Np.float_sub_int x x0 * Np.int_sub_float y1 y)%Q in
  let wd := (Np.float_sub_int x x0 * Np.float_sub_int y y0)%Q in
  Some (Ia * wa + Ib * wb + Ic * wc + Id * wd)%Q.

Definition field22 : Np.ndarray2 := [[0; 1]; [2; 3]]%Q.
Definition field11 : Np.ndarray2 := [[5]]%Q.

(** A 3x3 plane: the cell at row [r], column [c] holds [2*r + 3*c + 1]. *)
Definition plane33 : Np.ndarray2 :=
  [[1; 4; 7]; [3; 6; 9]; [5; 8; 11]]%Q.


(** The sampler at one point as the specification words it (section 4.1,
    steps 1 to 5): the weights are formed from the integers of step 1, the
    clamped integers of step 2 only index the field.  Kept next to
    [interp_at] for comparison. *)
Definition spec_sample_at (field : Np.ndarray2) (x y : Q) : option Q :=
  let x0 := Qfloor x in
  let x1 := x0 + 1 in
  let y0 := Qfloor y in
  let y1 := y0 + 1 in
  let cx0 := Np.clip1 x0 0 (Np.shape1 field - 1) in
  let cx1 := Np.clip1 x1 0 (Np.shape1 field - 1) in
  let cy0 := Np.clip1 y0 0 (Np.shape0 field - 1) in
  let cy1 := Np.clip1 y1 0 (Np.shape0 field - 1) in
  Ia ← Np.item field cy0 cx0;
  Ib ← Np.item field cy1 cx0;
  Ic ← Np.item field cy0 cx1;
  Id ← Np.item field cy1 cx1;
  let wa := ((inject_Z x1 - x) * (inject_Z y1 - y))%Q in
  let wb := ((inject_Z x1 - x) * (y - inject_Z y0))%Q in
  let wc := ((x - inject_Z x0) * (inject_Z y1 - y))%Q in
  let wd := ((x - inject_Z x0) * (y - inject_Z y0))%Q in
  Some (Ia * wa + Ib * wb + Ic * wc + Id * wd)%Q.


(** ** The same function over a store of objects

    Every array is an object at a location of the heap; names of the Python
    code hold locations.  A numpy call reads its operands and, unless it is
    given an [out] array to overwrite, allocates its result; rebinding a
    name ([x0 = np.clip(x0, ...)]) changes which location the name holds,
    not an object.  Beside the heap the state holds the log of the warnings
    issued through [warnings.warn]: the one output channel the calls of
    this function can reach.  Floats being exact rationals here, arithmetic
    never overflows, and the warnings of overflowing float arithmetic are
    outside the model as the overflow is. *)

Module Store.

Inductive obj :=
| FloatArray (a : list Q)
| IntArray (a : list Z)
| Image (a : Np.ndarray2).

(** [RuntimeWarning: invalid value encountered in cast]. *)
Inductive warning :=
| InvalidCast.

Record world := {
  heap : gmap nat obj;
  log : list warning;
}.

(** Computations: a result or an exception, and the state afterwards. *)
Definition M (A : Type) : Type := world -> option A * world.

Definition ret {A} (a : A) : M A := fun w => (Some a, w).

Definition bind {A B} (m : M A) (k : A -> M B) : M B :=
  fun w => match m w with
           | (Some a, w') => k a w'
           | (None, w') => (None, w')
           end.

Notation "x <~ m ;; k" := (bind m (fun x => k))
  (at level 100, m at next level, right associativity).

(** An exception of the pure primitive is raised; the state is as it was. *)
Definition lift {A} (o : option A) : M A := fun w => (o, w).

Definition new (o : obj) : M nat :=
  fun w => let l := fresh (dom (heap w)) in
           (Some l, {| heap := <[l := o]> (heap w); log := log w |}).

(** Overwriting the object at an existing location. *)
Definition store (l : nat) (o : obj) : M nat :=
  fun w => match heap w !! l with
           | Some _ => (Some l, {| heap := <[l := o]> (heap w); log := log w |})
           | None => (None, w)
           end.

Definition warn (x : warning) : M unit :=
  fun w => (Some tt, {| heap := heap w; log := log w ++ [x] |}).

Definition get_float (l : nat) : M (list Q) :=
  fun w => match heap w !! l with
           | Some (FloatArray a) => (Some a, w)
           | _ => (None, w)
           end.

Definition get_int (l : nat) : M (list Z) :=
  fun w => match heap w !! l with
           | Some (IntArray a) => (Some a, w)
           | _ => (None, w)
           end.

Definition get_image (l : nat) : M Np.ndarray2 :=
  fun w => match heap w !! l with
           | Some (Image a) => (Some a, w)
           | _ => (None, w)
           end.

Definition np_floor (x : nat) : M nat :=
  a <~ get_float x ;; new (FloatArray (Np.floor a)).

(** A float can be cast when its integer part is a 64-bit integer. *)
Definition castable (q : Q) : bool :=
  (- (2 ^ 63) <=? Np.trunc q) && (Np.trunc q <? 2 ^ 63).



Definition astype_int (x : nat) : M nat :=
  a <~ get_float x ;;
  _ <~ (if forallb castable a then ret tt else warn InvalidCast) ;;
  new (IntArray (Np.astype_int a)).

Definition add_scalar (x : nat) (k : Z) : M nat :=
  a <~ get_int x ;; new (IntArray (Np.add_scalar a k)).

(** [np.clip(a, lo, hi, out=None)]: with an [out] array of the shape of the
    result, the result is written into it. *)
Definition clip (x : nat) (lo hi : Z) (out : option nat) : M nat :=
  a <~ get_int x ;;
  match out with
  | None => new (IntArray (Np.clip a lo hi))
  | Some l =>
      b <~ get_int l ;;
      if decide (length b = length a)
      then store l (IntArray (Np.clip a lo hi))
      else lift None
  end.

(** [image.shape]: a tuple of Python ints, a value. *)
Definition shape (image : nat) : M (Z * Z) :=
  a <~ get_image image ;; ret (Np.shape0 a, Np.shape1 a).

Definition fancy_index (image rs cs : nat) : M nat :=
  img <~ get_image image ;;
  r <~ get_int rs ;;
  c <~ get_int cs ;;
  v <~ lift (Np.fancy_index img r c) ;;
  new (FloatArray v).

Definition sub_int_float (a b : nat) : M nat :=
  u <~ get_int a ;;
  v <~ get_float b ;;
  r <~ lift (Np.binop Np.int_sub_float u v) ;;
  new (FloatArray r).

Definition sub_float_int (a b : nat) : M nat :=
  u <~ get_float a ;;
  v <~ get_int b ;;
  r <~ lift (Np.binop Np.float_sub_int u v) ;;
  new (FloatArray r).

Definition mul (a b : nat) : M nat :=
  u <~ get_float a ;;
  v <~ get_float b ;;
  r <~ lift (Np.binop Qmult u v) ;;
  new (FloatArray r).

Definition add (a b : nat) : M nat :=
  u <~ get_float a ;;
  v <~ get_float b ;;
  r <~ lift (Np.binop Qplus u v) ;;
  new (FloatArray r).

(** a5utils.py, lines 28-53, statement by statement. *)
Definition bilinear_interpolate (image x y : nat) : M nat :=
  t <~ np_floor x ;;
  x0 <~ astype_int t ;;
  x1 <~ add_scalar x0 1 ;;
  t <~ np_floor y ;;
  y0 <~ astype_int t ;;
  y1 <~ add_scalar y0 1 ;;
  s <~ shape image ;;
  x0 <~ clip x0 0 (s.2 - 1) None ;;
  s <~ shape image ;;
  x1 <~ clip x1 0 (s.2 - 1) None ;;
  s <~ shape image ;;
  y0 <~ clip y0 0 (s.1 - 1) None ;;
  s <~ shape image ;;
  y1 <~ clip y1 0 (s.1 - 1) None ;;
  Ia <~ fancy_index image y0 x0 ;;
  Ib <~ fancy_index image y1 x0 ;;
  Ic <~ fancy_index image y0 x1 ;;
  Id <~ fancy_index image y1 x1 ;;
  t1 <~ sub_int_float x1 x ;;
  t2 <~ sub_int_float y1 y ;;
  wa <~ mul t1 t2 ;;
  t1 <~ sub_int_float x1 x ;;
  t2 <~ sub_float_int y y0 ;;
  wb <~ mul t1 t2 ;;
  t1 <~ sub_float_int x x0 ;;
  t2 <~ sub_int_float y1 y ;;
  wc <~ mul t1 t2 ;;
  t1 <~ sub_float_int x x0 ;;
  t2 <~ sub_float_int y y0 ;;
  wd <~ mul t1 t2 ;;
  t1 <~ mul Ia wa ;;
  t2 <~ mul Ib wb ;;
  s1 <~ add t1 t2 ;;
  t3 <~ mul Ic wc ;;
  s2 <~ add s1 t3 ;;
  t4 <~ mul Id wd ;;
  add s2 t4.





End Store.

(** ** SelectPoints (a5utils.py, lines 88-117)

    The instance, and what its handler touches outside itself: the texts
    added to the axes, the redraws of the canvas, and the callback registry
    of the canvas (the set of connected callback ids). *)

Module Picker.

Record Axes := {
  ax_id : nat;         (* identity of the axes object *)
  viewLim_x0 : Q;
  viewLim_x1 : Q;
}.

(** A [button_press_event]: the axes under the pointer, if any, and the data
    coordinates of the click. *)
Record Event := {
  inaxes : option nat;
  xdata : Q;
  ydata : Q;
}.

Record Text := {
  text_x : Q;
  text_y : Q;
  text_s : nat;        (* '%s' % len(self.xs) *)
}.

Record SelectPoints := {
  ax : Axes;
  pts : list Q * list Q;   (* data of the line [ax.plot] returned *)
  npoints : Z;
  xs : list Q;
  ys : list Q;
  cid : nat;
  toffset : Q;
}.

Record World := {
  self : SelectPoints;
  texts : list Text;
  draws : nat;
  callbacks : gset nat;
}.

(** [ax.plot([0],[0],'r.')] is matplotlib's: whether it rescales the view,
    and to what, depends on the autoscaling state of the axes and on what
    is drawn on it already.  Its effect on the view is the parameter
    [plot_view]: the horizontal view limits the axes has once the point is
    plotted, which is what line 100 reads. *)
Definition plotted (plot_view : Axes -> Q * Q) (a : Axes) : Axes :=
  {| ax_id := ax_id a;
     viewLim_x0 := (plot_view a).1; viewLim_x1 := (plot_view a).2 |}.

(** Two such effects: autoscaling off (the view stays), and an empty axes
    autoscaled around the single point at the origin. *)
Definition view_kept (a : Axes) : Q * Q := (viewLim_x0 a, viewLim_x1 a).
Definition view_of_origin (_ : Axes) : Q * Q := (- (55 # 1000), 55 # 1000)%Q.

(** [__init__]: [registered] are the callback ids the canvas already has;
    [mpl_connect] hands out an unused one. *)
Definition init (plot_view : Axes -> Q * Q) (a : Axes) (n : Z)
    (registered : gset nat) : World :=
  let a' := plotted plot_view a in
  let c := fresh registered in
  {| self := {| ax := a'; pts := ([0%Q], [0%Q]); npoints := n;
                xs := []; ys := []; cid := c;
                toffset := ((5 # 100) * (viewLim_x1 a' - viewLim_x0 a'))%Q |};
     texts := []; draws := 0; callbacks := {[c]} ∪ registered |}.

(** [__call__]. *)
Definition call (w : World) (event : Event) : World :=
  let s := self w in
  (* ignore clicks outside the figure axis *)
  if decide (inaxes event ≠ Some (ax_id (ax s))) then w
  else
    let xs' := xs s ++ [xdata event] in
    let ys' := ys s ++ [ydata event] in
    let s' := {| ax := ax s; pts := (xs', ys'); npoints := npoints s;
                 xs := xs'; ys := ys'; cid := cid s; toffset := toffset s |} in
    let t := {| text_x := (xdata event + toffset s)%Q; text_y := ydata event;
                text_s := length xs' |} in
    let cbs := if decide (npoints s <= Z.of_nat (length xs'))
               then callbacks w ∖ {[cid s]}
               else callbacks w in
    {| self := s'; texts := texts w ++ [t]; draws := S (draws w);
       callbacks := cbs |}.

Definition connected (w : World) : Prop := cid (self w) ∈ callbacks w.

(** The canvas delivers an event to the handler while it is connected. *)
Inductive step : World -> Event -> World -> Prop :=
| step_handled w ev : connected w -> step w ev (call w ev)
| step_unheard w ev : ~ connected w -> step w ev w.

Inductive run : World -> list Event -> World -> Prop :=
| run_nil w : run w [] w
| run_cons w ev w1 evs w2 : step w ev w1 -> run w1 evs w2 -> run w (ev :: evs) w2.

(** The same delivery as a function. *)
Definition deliver (w : World) (ev : Event) : World :=
  if decide (connected w) then call w ev else w.

Definition count (w : World) : nat := length (xs (self w)).

(** What every delivery keeps true, for a picker created with target [n]. *)
Definition picker_inv (n : Z) (w : World) : Prop :=
  npoints (self w) = n /\
  length (xs (self w)) = length (ys (self w)) /\
  (connected w -> count w = 0%nat \/ Z.of_nat (count w) < n) /\
  (1 <= n -> Z.of_nat (count w) <= n).

Definition axes7 : Axes := {| ax_id := 7; viewLim_x0 := 0; viewLim_x1 := 10 |}.
Definition click_outside : Event :=
  {| inaxes := None; xdata := 0; ydata := 0 |}.

End Picker.

(** ** select_k_points (a5utils.py, lines 119-143) *)

(** ['%d' % n] for a Python int. *)
Definition format_d (n : Z) : string :=
  DecimalString.NilZero.string_of_int (Z.to_int n).

Record Selection := {
  title : string;                 (* the title set on the axes *)
  selectpoints : Picker.World;    (* the instance that is returned *)
}.

(** [shown] are the button-press events the canvas receives while
    [plt.show()] displays the figure (none if it does not block). *)
Definition select_k_points (plot_view : Picker.Axes -> Q * Q)
    (a : Picker.Axes) (npoints : Z)
    (registered : gset nat) (shown : list Picker.Event) : Selection :=
  {| title := String.append "click to select "
                (String.append (format_d npoints) " points");
     selectpoints :=
       foldl Picker.deliver (Picker.init plot_view a npoints registered) shown |}.

(** A click inside the axes of the picker. *)
Definition in_axes (a : Picker.Axes) (ev : Picker.Event) : Prop :=
  Picker.inaxes ev = Some (Picker.ax_id a).

Global Instance in_axes_dec a ev : Decision (in_axes a ev).
Proof. unfold in_axes. apply _. Defined.

Definition picker_label (off : Q) (i : nat) (p : Q * Q) : Picker.Text :=
  {| Picker.text_x := (p.1 + off)%Q; Picker.text_y := p.2;
     Picker.text_s := S i |}.

(** The picker in closed form, as a function of the clicks inside the axes
    it has been sent so far (for comparison with the handler; see
    [deliver_all_closed_form]). *)
Definition picker_after (plot_view : Picker.Axes -> Q * Q) (a : Picker.Axes)
    (n : Z) (registered : gset nat) (clicks : list Picker.Event)
  : Picker.World :=
  let k := Z.to_nat (Z.max n 1) in
  let c := fresh registered in
  let off := ((5 # 100) * ((plot_view a).2 - (plot_view a).1))%Q in
  let xs' := take k (Picker.xdata <$> clicks) in
  let ys' := take k (Picker.ydata <$> clicks) in
  {| Picker.self :=
       {| Picker.ax := Picker.plotted plot_view a;
          Picker.pts := if decide (clicks = []) then ([0%Q], [0%Q])
                        else (xs', ys');
          Picker.npoints := n; Picker.xs := xs'; Picker.ys := ys';
          Picker.cid := c; Picker.toffset := off |};
     Picker.texts := imap (picker_label off) (zip xs' ys');
     Picker.draws := length xs';
     Picker.callbacks := if decide (length clicks < k)%nat
                         then {[c]} ∪ registered else registered |}.

(** ** display_movie (a5utils.py, lines 56-86) *)

Module Movie.

(** What the function touches in [matplotlib.pyplot]: the figures created
    so far and the setting [rcParams['animation.html']]. *)
Record Pyplot := {
  figures : nat;
  animation_html : string;
}.

Section Frames.

Context {Frame : Type}.

(** [image_array[i]]: negative indices count from the end, an index outside
    [-len, len) raises IndexError. *)
Definition getitem (image_array : list Frame) (i : Z) : option Frame :=
  k ← Np.norm_index (Z.of_nat (length image_array)) i;
  image_array !! k.

(** The animation object, with what its closure [animate] holds: the
    figure image [im] (as the array it currently shows) and the frames. *)
Record FuncAnimation := {
  fig : nat;
  im : Frame;
  image_array : list Frame;
  frames : nat;
}.

Definition display_movie (images : list Frame) (plt : Pyplot)
  : option FuncAnimation * Pyplot :=
  (* fig = plt.figure() *)
  let f := S (figures plt) in
  let plt := {| figures := f; animation_html := animation_html plt |} in
  (* im = plt.figimage(image_array[0], resize=True) *)
  match getitem images 0 with
  | None => (None, plt)
  | Some first =>
      (* ani = FuncAnimation(fig, animate, frames=len(image_array));
         rc('animation', html='jshtml') *)
      (Some {| fig := f; im := first; image_array := images;
               frames := length images |},
       {| figures := f; animation_html := "jshtml" |})
  end.

(** The inner function [animate(i)]: [im.set_array(image_array[i])]. *)
Definition animate (ani : FuncAnimation) (i : Z) : option FuncAnimation :=
  a ← getitem (image_array ani) i;
  Some {| fig := fig ani; im := a; image_array := image_array ani;
          frames := frames ani |}.

(** Drawing frames [idx] one after the other. *)
Fixpoint play (ani : FuncAnimation) (idx : list Z) : option FuncAnimation :=
  match idx with
  | [] => Some ani
  | i :: idx => ani' ← animate ani i; play ani' idx
  end.

End Frames.

Arguments FuncAnimation : clear implicits.

(** [range(n)]: what [FuncAnimation] iterates over when [frames] is an
    integer. *)
Definition range (n : nat) : list Z := Z.of_nat <$> seq 0 n.

Definition pyplot0 : Pyplot := {| figures := 0; animation_html := "none" |}.

End Movie.
(** ** Facts about the numpy primitives *)

Section NpFacts.

Lemma trunc_floor (q : Q) : Np.trunc (inject_Z (Qfloor q)) = Qfloor q.
Proof.
  unfold Np.trunc.
  destruct (Qle_bool 0 (inject_Z (Qfloor q))); [apply Qfloor_Z | apply Qceiling_Z].
Qed.

Lemma astype_int_floor (x : list Q) : Np.astype_int (Np.floor x) = Qfloor <$> x.
Proof.
  unfold Np.astype_int, Np.floor.
  induction x as [|q x IH]; csimpl; [done|].
  by rewrite trunc_floor, IH.
Qed.

Context {A B C : Type}.

Lemma broadcast_same_length (a : list A) (b : list B) :
  length a = length b -> Np.broadcast a b = Some (zip a b).
Proof. intros E. unfold Np.broadcast. by rewrite decide_True. Qed.

Lemma binop_same_length (f : A -> B -> C) (a : list A) (b : list B) :
  length a = length b -> Np.binop f a b = Some (zip_with f a b).
Proof.
  intros E. unfold Np.binop. rewrite broadcast_same_length by done.
  simpl. f_equal. revert b E.
  induction a as [|u a IH]; intros [|v b] E; simpl in *; try done.
  f_equal. apply IH. lia.
Qed.

(** Both operands computed elementwise from one list. *)
Lemma binop_fmap {T} (f : A -> B -> C) (g : T -> A) (h : T -> B) (l : list T) :
  Np.binop f (g <$> l) (h <$> l) = Some ((fun t => f (g t) (h t)) <$> l).
Proof.
  rewrite binop_same_length by (by rewrite !length_fmap).
  f_equal. induction l as [|t l IH]; csimpl; [done|]. by rewrite IH.
Qed.

End NpFacts.

Lemma fancy_index_fmap {T} image (g h : T -> Z) (l : list T) :
  Np.fancy_index image (g <$> l) (h <$> l)
  = mapM (fun t => Np.item image (g t) (h t)) l.
Proof.
  unfold Np.fancy_index.
  rewrite broadcast_same_length by (by rewrite !length_fmap).
  simpl. induction l as [|t l IH]; [done|].
  change (mapM (fun p : Z * Z => Np.item image p.1 p.2) (zip (g <$> t :: l) (h <$> t :: l)))
    with (v ← Np.item image (g t) (h t);
          k ← mapM (fun p : Z * Z => Np.item image p.1 p.2) (zip (g <$> l) (h <$> l));
          Some (v :: k)).
  by rewrite IH.
Qed.

Lemma mapM_Some_default {A B} (d : B) (f : A -> option B) l k :
  mapM f l = Some k -> k = (fun a => default d (f a)) <$> l.
Proof.
  intros H%mapM_Some_1.
  induction H as [|a b l k Hab _ IH]; csimpl; [done|].
  by rewrite Hab, <- IH.
Qed.

(** ** The vectorised function is the per-point body, position by position *)

Local Ltac item_cases :=
  repeat match goal with
    | |- context [Np.item ?i ?r ?c] =>
        destruct (Np.item i r c) eqn:?; simpl in *
    end.

Local Ltac next_neighbour Ia E F :=
  match goal with
  | |- (mapM ?f ?ps ≫= _) = _ =>
      destruct (mapM f ps) as [Ia|] eqn:E; cbn [mbind option_bind];
      [ pose proof (mapM_is_Some_1 _ _ (ex_intro _ _ E)) as F;
        apply (mapM_Some_default 0%Q) in E
      | symmetry; apply mapM_None_2; apply mapM_None_1 in E;
        eapply Exists_impl; [exact E|]; intros p Hp;
        unfold interp_at, compose in *; simpl in *;
        item_cases; congruence ]
  end.

Lemma bilinear_interpolate_pairs image (ps : list (Q * Q)) :
  bilinear_interpolate image ps.*1 ps.*2
  = mapM (fun p => interp_at image p.1 p.2) ps.
Proof.
  unfold bilinear_interpolate.
  rewrite !astype_int_floor. unfold Np.add_scalar, Np.clip.
  rewrite <- !list_fmap_compose.
  rewrite !fancy_index_fmap.
  next_neighbour Ia Ea Fa. next_neighbour Ib Eb Fb.
  next_neighbour Ic Ec Fc. next_neighbour Id Ed Fd.
  subst Ia Ib Ic Id.
  repeat (rewrite binop_fmap; cbn [mbind option_bind]).
  symmetry. apply mapM_Some_2, Forall2_fmap_r, Forall_Forall2_diag.
  rewrite Forall_forall in *. intros p Hp.
  destruct (Fa p Hp) as [a Ha], (Fb p Hp) as [b Hb],
    (Fc p Hp) as [c Hc], (Fd p Hp) as [d Hd].
  unfold interp_at, compose in *. simpl in *.
  by rewrite Ha, Hb, Hc, Hd.
Qed.

Lemma bilinear_interpolate_zip image (xs ys : list Q) :
  length xs = length ys ->
  bilinear_interpolate image xs ys
  = mapM (fun p => interp_at image p.1 p.2) (zip xs ys).
Proof.
  intros E. rewrite <- bilinear_interpolate_pairs.
  by rewrite fst_zip, snd_zip by lia.
Qed.

Lemma bilinear_interpolate_point image (x y : Q) :
  bilinear_interpolate image [x] [y] = (v ← interp_at image x y; Some [v]).
Proof.
  rewrite bilinear_interpolate_zip by done. simpl.
  by destruct (interp_at image x y).
Qed.

(** ** Floors, clipping and in-bounds lookups *)

Lemma Qfloor_ge (n : Z) (x : Q) : (inject_Z n <= x)%Q -> n <= Qfloor x.
Proof. intros H. rewrite <- (Qfloor_Z n). by apply Qfloor_resp_le. Qed.

Lemma Qfloor_lt (n : Z) (x : Q) : (x < inject_Z n)%Q -> Qfloor x < n.
Proof.
  intros H. rewrite Zlt_Qlt.
  eapply Qle_lt_trans; [apply Qfloor_le | exact H].
Qed.

Lemma Qfloor_le_lt (x : Q) :
  (inject_Z (Qfloor x) <= x)%Q /\ (x < inject_Z (Qfloor x) + 1)%Q.
Proof.
  split; [apply Qfloor_le|].
  pose proof (Qlt_floor x) as H. by rewrite inject_Z_plus in H.
Qed.

Lemma clip1_bounds (v hi : Z) : 0 <= hi -> 0 <= Np.clip1 v 0 hi <= hi.
Proof. unfold Np.clip1. lia. Qed.

Lemma clip1_id (v hi : Z) : 0 <= v <= hi -> Np.clip1 v 0 hi = v.
Proof. unfold Np.clip1. lia. Qed.

Lemma clip1_low (v hi : Z) : 0 <= hi -> v <= 0 -> Np.clip1 v 0 hi = 0.
Proof. unfold Np.clip1. lia. Qed.

Lemma clip1_high (v hi : Z) : 0 <= hi -> hi <= v -> Np.clip1 v 0 hi = hi.
Proof. unfold Np.clip1. lia. Qed.

Lemma norm_index_in_bounds (n i : Z) :
  0 <= i < n -> Np.norm_index n i = Some (Z.to_nat i).
Proof. intros H. unfold Np.norm_index. by rewrite decide_True. Qed.

Lemma item_in_bounds image (r c : Z) :
  Np.rectangular image ->
  0 <= r < Np.shape0 image -> 0 <= c < Np.shape1 image ->
  is_Some (Np.item image r c).
Proof.
  intros Hrect Hr Hc. unfold Np.item.
  rewrite !norm_index_in_bounds by done. cbn [mbind option_bind].
  destruct (lookup_lt_is_Some_2 image (Z.to_nat r)) as [row Hrow].
  { unfold Np.shape0 in Hr. lia. }
  rewrite Hrow. cbn [mbind option_bind].
  apply lookup_lt_is_Some_2.
  unfold Np.rectangular in Hrect. rewrite Forall_forall in Hrect.
  specialize (Hrect row (list_elem_of_lookup_2 _ _ _ Hrow)). lia.
Qed.

(** The four neighbour lookups of [interp_at] never fail on a non-empty
    rectangular image: clipping puts every index inside the array. *)
Lemma interp_at_corners image (x y : Q) :
  Np.rectangular image -> 1 <= Np.shape0 image -> 1 <= Np.shape1 image ->
  exists Ia Ib Ic Id,
    let x0 := Np.clip1 (Qfloor x) 0 (Np.shape1 image - 1) in
    let x1 := Np.clip1 (Qfloor x + 1) 0 (Np.shape1 image - 1) in
    let y0 := Np.clip1 (Qfloor y) 0 (Np.shape0 image - 1) in
    let y1 := Np.clip1 (Qfloor y + 1) 0 (Np.shape0 image - 1) in
    Np.item image y0 x0 = Some Ia /\ Np.item image y1 x0 = Some Ib /\
    Np.item image y0 x1 = Some Ic /\ Np.item image y1 x1 = Some Id /\
    interp_at image x y
    = Some (Ia * (Np.int_sub_float x1 x * Np.int_sub_float y1 y)
            + Ib * (Np.int_sub_float x1 x * Np.float_sub_int y y0)
            + Ic * (Np.float_sub_int x x0 * Np.int_sub_float y1 y)
            + Id * (Np.float_sub_int x x0 * Np.float_sub_int y y0))%Q.
Proof.
  intros Hrect HH HW.
  pose proof (clip1_bounds (Qfloor x) (Np.shape1 image - 1)) as Bx0.
  pose proof (clip1_bounds (Qfloor x + 1) (Np.shape1 image - 1)) as Bx1.
  pose proof (clip1_bounds (Qfloor y) (Np.shape0 image - 1)) as By0.
  pose proof (clip1_bounds (Qfloor y + 1) (Np.shape0 image - 1)) as By1.
  destruct (item_in_bounds image (Np.clip1 (Qfloor y) 0 (Np.shape0 image - 1))
              (Np.clip1 (Qfloor x) 0 (Np.shape1 image - 1))) as [Ia Ha];
    [done | lia | lia |].
  destruct (item_in_bounds image (Np.clip1 (Qfloor y + 1) 0 (Np.shape0 image - 1))
              (Np.clip1 (Qfloor x) 0 (Np.shape1 image - 1))) as [Ib Hb];
    [done | lia | lia |].
  destruct (item_in_bounds image (Np.clip1 (Qfloor y) 0 (Np.shape0 image - 1))
              (Np.clip1 (Qfloor x + 1) 0 (Np.shape1 image - 1))) as [Ic Hc];
    [done | lia | lia |].
  destruct (item_in_bounds image (Np.clip1 (Qfloor y + 1) 0 (Np.shape0 image - 1))
              (Np.clip1 (Qfloor x + 1) 0 (Np.shape1 image - 1))) as [Id Hd];
    [done | lia | lia |].
  exists Ia, Ib, Ic, Id. cbv zeta. unfold interp_at.
  by rewrite Ha, Hb, Hc, Hd.
Qed.

(** ** Collapsed neighbours: the weights cancel *)

(** When clipping sends both column indices to the same column, the two
    column factors [(x1 - x)] and [(x - x0)] are opposite and multiply the
    same pair of cells. *)
Lemma interp_at_collapse_x image (x y : Q) :
  Np.rectangular image -> 1 <= Np.shape0 image -> 1 <= Np.shape1 image ->
  Np.clip1 (Qfloor x) 0 (Np.shape1 image - 1)
  = Np.clip1 (Qfloor x + 1) 0 (Np.shape1 image - 1) ->
  exists v, interp_at image x y = Some v /\ (v == 0)%Q.
Proof.
  intros Hrect HH HW Hx.
  destruct (interp_at_corners image x y Hrect HH HW)
    as (Ia & Ib & Ic & Id & Ha & Hb & Hc & Hd & ->).
  cbv zeta in *. rewrite <- Hx in *.
  assert (Ic = Ia) as -> by congruence.
  assert (Id = Ib) as -> by congruence.
  eexists; split; [reflexivity|].
  unfold Np.int_sub_float, Np.float_sub_int. ring.
Qed.

Lemma interp_at_collapse_y image (x y : Q) :
  Np.rectangular image -> 1 <= Np.shape0 image -> 1 <= Np.shape1 image ->
  Np.clip1 (Qfloor y) 0 (Np.shape0 image - 1)
  = Np.clip1 (Qfloor y + 1) 0 (Np.shape0 image - 1) ->
  exists v, interp_at image x y = Some v /\ (v == 0)%Q.
Proof.
  intros Hrect HH HW Hy.
  destruct (interp_at_corners image x y Hrect HH HW)
    as (Ia & Ib & Ic & Id & Ha & Hb & Hc & Hd & ->).
  cbv zeta in *. rewrite <- Hy in *.
  assert (Ib = Ia) as -> by congruence.
  assert (Id = Ic) as -> by congruence.
  eexists; split; [reflexivity|].
  unfold Np.int_sub_float, Np.float_sub_int. ring.
Qed.

(** A coordinate below 0 or at least [n - 1] on an axis of size [n >= 1]
    has both of its clipped neighbour indices on the same border. *)
Lemma clip1_collapse (n : Z) (t : Q) :
  1 <= n ->
  (t < 0)%Q \/ (inject_Z (n - 1) <= t)%Q ->
  Np.clip1 (Qfloor t) 0 (n - 1) = Np.clip1 (Qfloor t + 1) 0 (n - 1).
Proof.
  intros Hn [Hlo | Hhi].
  - apply (Qfloor_lt 0) in Hlo.
    rewrite !clip1_low by lia. done.
  - apply Qfloor_ge in Hhi.
    rewrite !clip1_high by lia. done.
Qed.

Lemma point_result image (x y : Q) (P : Q -> Prop) :
  (exists v, interp_at image x y = Some v /\ P v) ->
  exists v, bilinear_interpolate image [x] [y] = Some [v] /\ P v.
Proof.
  intros (v & Hv & HP). exists v. split; [|done].
  by rewrite bilinear_interpolate_point, Hv.
Qed.

(** ** Results at and beyond the far border *)

Lemma interp_at_far_border image (x y : Q) :
  Np.rectangular image -> 1 <= Np.shape0 image -> 1 <= Np.shape1 image ->
  ((x < 0)%Q \/ (inject_Z (Np.shape1 image - 1) <= x)%Q) \/
  ((y < 0)%Q \/ (inject_Z (Np.shape0 image - 1) <= y)%Q) ->
  exists v, interp_at image x y = Some v /\ (v == 0)%Q.
Proof.
  intros Hrect HH HW [Hx | Hy].
  - apply interp_at_collapse_x; auto using clip1_collapse.
  - apply interp_at_collapse_y; auto using clip1_collapse.
Qed.

(** C4: on a rectangular field with at least one row and one column, a query
    point with [x < 0], [x >= W-1], [y < 0] or [y >= H-1] is sampled as 0
    whatever the field holds; in particular every sample of a field with a
    single row or a single column is 0. *)
Theorem far_border_zero image (x y : Q) :
  Np.rectangular image -> 1 <= Np.shape0 image -> 1 <= Np.shape1 image ->
  ((x < 0)%Q \/ (inject_Z (Np.shape1 image - 1) <= x)%Q \/
   (y < 0)%Q \/ (inject_Z (Np.shape0 image - 1) <= y)%Q \/
   Np.shape0 image = 1 \/ Np.shape1 image = 1) ->
  exists v, bilinear_interpolate image [x] [y] = Some [v] /\ (v == 0)%Q.
Proof.
  intros Hrect HH HW Hcase. apply point_result.
  apply interp_at_far_border; try done.
  destruct Hcase as [H | [H | [H | [H | [H | H]]]]]; auto.
  - right. rewrite H. simpl. destruct (Qlt_le_dec y 0); auto.
  - left. rewrite H. simpl. destruct (Qlt_le_dec x 0); auto.
Qed.

Lemma rectangular_field22 : Np.rectangular field22.
Proof. by repeat constructor. Qed.

Lemma rectangular_field11 : Np.rectangular field11.
Proof. by repeat constructor. Qed.

Lemma far_border_zero_witness :
  exists v, bilinear_interpolate field22 [1%Q] [1%Q] = Some [v] /\ (v == 0)%Q.
Proof.
  apply (far_border_zero field22 1 1).
  - apply rectangular_field22.
  - vm_compute. discriminate.
  - vm_compute. discriminate.
  - right. left. vm_compute. discriminate.
Defined.

(** ** Where all four neighbours are inside the grid *)

(** With [0 <= floor x <= W-2] and [0 <= floor y <= H-2] clipping changes
    nothing, and the code computes what the specification describes. *)
Lemma interp_at_inner image (x y : Q) :
  0 <= Qfloor x <= Np.shape1 image - 2 ->
  0 <= Qfloor y <= Np.shape0 image - 2 ->
  interp_at image x y = spec_sample_at image x y.
Proof.
  intros Hx Hy. unfold interp_at, spec_sample_at.
  rewrite !clip1_id by lia. done.
Qed.

(** Grid points whose right and lower neighbours exist are sampled exactly. *)
Lemma interp_at_grid_inner image (xi yi : Z) :
  Np.rectangular image ->
  0 <= xi <= Np.shape1 image - 2 ->
  0 <= yi <= Np.shape0 image - 2 ->
  exists v w, interp_at image (inject_Z xi) (inject_Z yi) = Some v /\
              Np.item image yi xi = Some w /\ (v == w)%Q.
Proof.
  intros Hrect Hx Hy.
  destruct (interp_at_corners image (inject_Z xi) (inject_Z yi))
    as (Ia & Ib & Ic & Id & Ha & Hb & Hc & Hd & ->); [done | lia | lia |].
  cbv zeta in *. rewrite !Qfloor_Z in *. rewrite !clip1_id in * by lia.
  exists (Ia * (Np.int_sub_float (xi + 1) (inject_Z xi)
                * Np.int_sub_float (yi + 1) (inject_Z yi))
          + Ib * (Np.int_sub_float (xi + 1) (inject_Z xi)
                  * Np.float_sub_int (inject_Z yi) yi)
          + Ic * (Np.float_sub_int (inject_Z xi) xi
                  * Np.int_sub_float (yi + 1) (inject_Z yi))
          + Id * (Np.float_sub_int (inject_Z xi) xi
                  * Np.float_sub_int (inject_Z yi) yi))%Q, Ia.
  split; [done|]. split; [done|].
  unfold Np.int_sub_float, Np.float_sub_int.
  rewrite !inject_Z_plus. ring.
Qed.

(** C2 (the code departs from it): at the last row and column of the 2x2
    field [[0,1],[2,3]] the code returns 0 although the cell holds 3; at
    (0, 0) it returns the cell's value 0. *)
Theorem grid_point_last_index :
  (exists v, bilinear_interpolate field22 [1%Q] [1%Q] = Some [v] /\
             (v == 0)%Q /\ ~ (v == 3)%Q) /\
  Np.item field22 1 1 = Some 3%Q /\
  (exists v, bilinear_interpolate field22 [0%Q] [0%Q] = Some [v] /\ (v == 0)%Q) /\
  Np.item field22 0 0 = Some 0%Q.
Proof.
  split; [|split; [|split]].
  - eexists. split; [vm_compute; reflexivity|]. split; [reflexivity|discriminate].
  - reflexivity.
  - eexists. split; [vm_compute; reflexivity|]. reflexivity.
  - reflexivity.
Qed.

(** C3 (the code departs from it): on the 1x1 field [[5]] the sample at
    (10, 10), where all four clipped neighbours are the single cell, is 0,
    not the cell's value 5. *)
Theorem out_of_range_sample :
  (exists v, bilinear_interpolate field11 [10%Q] [10%Q] = Some [v] /\
             (v == 0)%Q /\ ~ (v == 5)%Q) /\
  Np.item field11 (Np.clip1 (Qfloor 10) 0 (Np.shape0 field11 - 1))
                  (Np.clip1 (Qfloor 10) 0 (Np.shape1 field11 - 1)) = Some 5%Q /\
  Np.item field11 (Np.clip1 (Qfloor 10 + 1) 0 (Np.shape0 field11 - 1))
                  (Np.clip1 (Qfloor 10 + 1) 0 (Np.shape1 field11 - 1)) = Some 5%Q.
Proof.
  split; [|split].
  - eexists. split; [vm_compute; reflexivity|]. split; [reflexivity|discriminate].
  - reflexivity.
  - reflexivity.
Qed.

(** C1 (the code departs from it): the weights of the code are formed from
    the clipped integers.  On the 1x1 field [[5]] at (10, 10) the code
    returns 0 where the sum weighted by the unclamped offsets is 5; on the
    2x2 field at (1, 1) it returns 0 where that sum is 3. *)
Theorem weights_use_clipped_indices :
  (exists v w, bilinear_interpolate field11 [10%Q] [10%Q] = Some [v] /\
               spec_sample_at field11 10 10 = Some w /\
               (v == 0)%Q /\ (w == 5)%Q /\ ~ (v == w)%Q) /\
  (exists v w, bilinear_interpolate field22 [1%Q] [1%Q] = Some [v] /\
               spec_sample_at field22 1 1 = Some w /\
               (v == 0)%Q /\ (w == 3)%Q /\ ~ (v == w)%Q).
Proof.
  split; eexists; eexists;
    (split; [vm_compute; reflexivity|]);
    (split; [vm_compute; reflexivity|]);
    (split; [reflexivity|]); (split; [reflexivity|discriminate]).
Qed.

(** ** Interior points *)

Lemma inner_floor (n : Z) (t : Q) :
  (0 < t)%Q -> (t < inject_Z (n - 1))%Q -> 0 <= Qfloor t <= n - 2.
Proof.
  intros Hlo Hhi. split.
  - apply (Qfloor_ge 0). by apply Qlt_le_weak.
  - apply Qfloor_lt in Hhi. lia.
Qed.

(** C5: on a field whose cell at row [r], column [c] holds [a*r + b*c + c0],
    a query point with [0 < x < W-1] and [0 < y < H-1] is sampled as
    [a*y + b*x + c0] (integer coordinates included). *)
Theorem interior_linearity image (a b c0 x y : Q) :
  Np.rectangular image ->
  (forall (r c : Z) (v : Q),
     0 <= r < Np.shape0 image -> 0 <= c < Np.shape1 image ->
     Np.item image r c = Some v ->
     (v == a * inject_Z r + b * inject_Z c + c0)%Q) ->
  (0 < x)%Q -> (x < inject_Z (Np.shape1 image - 1))%Q ->
  (0 < y)%Q -> (y < inject_Z (Np.shape0 image - 1))%Q ->
  exists v, bilinear_interpolate image [x] [y] = Some [v] /\
            (v == a * y + b * x + c0)%Q.
Proof.
  intros Hrect Hplane Hx0 Hx1 Hy0 Hy1. apply point_result.
  pose proof (inner_floor _ _ Hx0 Hx1) as Fx.
  pose proof (inner_floor _ _ Hy0 Hy1) as Fy.
  destruct (interp_at_corners image x y)
    as (Ia & Ib & Ic & Id & Ha & Hb & Hc & Hd & ->); [done | lia | lia |].
  cbv zeta in *. rewrite !clip1_id in * by lia.
  apply Hplane in Ha, Hb, Hc, Hd; try lia.
  eexists; split; [reflexivity|].
  rewrite Ha, Hb, Hc, Hd.
  unfold Np.int_sub_float, Np.float_sub_int.
  rewrite !inject_Z_plus. ring.
Qed.

Lemma interior_linearity_witness :
  exists v, bilinear_interpolate plane33 [1 # 2] [3 # 2] = Some [v] /\
            (v == 2 * (3 # 2) + 3 * (1 # 2) + 1)%Q.
Proof.
  apply (interior_linearity plane33 2 3 1 (1 # 2) (3 # 2)).
  - by repeat constructor.
  - intros r c v Hr Hc.
    change (Np.shape0 plane33) with 3 in Hr.
    change (Np.shape1 plane33) with 3 in Hc.
    assert (r = 0 \/ r = 1 \/ r = 2) as [-> | [-> | ->]] by lia;
      assert (c = 0 \/ c = 1 \/ c = 2) as [-> | [-> | ->]] by lia;
      intros [= <-]; reflexivity.
  - reflexivity.
  - reflexivity.
  - reflexivity.
  - reflexivity.
Defined.

(** C6: on the 2x2 field [[0,1],[2,3]] the sample at (0.5, 0.5) is 1.5. *)
Theorem centre_of_field22 :
  exists v, bilinear_interpolate field22 [1 # 2] [1 # 2] = Some [v] /\
            (v == 3 # 2)%Q.
Proof. eexists. split; [vm_compute; reflexivity | reflexivity]. Qed.

(** ** Batches *)

Lemma interp_at_total image (x y : Q) :
  Np.rectangular image -> 1 <= Np.shape0 image -> 1 <= Np.shape1 image ->
  is_Some (interp_at image x y).
Proof.
  intros Hrect HH HW.
  destruct (interp_at_corners image x y Hrect HH HW)
    as (Ia & Ib & Ic & Id & _ & _ & _ & _ & ->).
  by eexists.
Qed.

(** C7: for coordinate arrays of equal length the call is the list of the
    one-point calls, in order: the result has the length of the inputs and
    its i-th element is the result of the call on [[xs[i]]] and [[ys[i]]];
    it raises exactly when one of the one-point calls does, which never
    happens on a rectangular field with at least one row and one column. *)
Theorem batch_elementwise image (xs ys : list Q) :
  length xs = length ys ->
  bilinear_interpolate image xs ys
  = mapM (fun p => vs ← bilinear_interpolate image [p.1] [p.2]; vs !! 0%nat)
      (zip xs ys) /\
  (forall vs, bilinear_interpolate image xs ys = Some vs ->
     length vs = length xs /\ length vs = length ys /\
     forall (i : nat) (x y : Q), xs !! i = Some x -> ys !! i = Some y ->
       exists v, vs !! i = Some v /\
                 bilinear_interpolate image [x] [y] = Some [v]) /\
  (Np.rectangular image -> 1 <= Np.shape0 image -> 1 <= Np.shape1 image ->
   is_Some (bilinear_interpolate image xs ys)).
Proof.
  intros Hlen. rewrite bilinear_interpolate_zip by done.
  split; [|split].
  - apply mapM_ext. intros [x y]. simpl.
    rewrite bilinear_interpolate_point. by destruct (interp_at image x y).
  - intros vs Hvs. apply mapM_Some_1 in Hvs.
    pose proof (Forall2_length _ _ _ Hvs) as Hl.
    rewrite length_zip_with in Hl.
    split; [lia|]. split; [lia|].
    intros i x y Hx Hy.
    destruct (Forall2_lookup_l _ _ _ i (x, y) Hvs) as (v & Hv & Hxy).
    { apply lookup_zip_with_Some. eauto. }
    exists v. split; [done|].
    rewrite bilinear_interpolate_point. simpl in Hxy. by rewrite Hxy.
  - intros Hrect HH HW. apply mapM_is_Some_2, Forall_forall.
    intros [x y] _. by apply interp_at_total.
Qed.

Lemma batch_elementwise_witness :
  bilinear_interpolate field22 [1 # 2; 0; 1 # 3]%Q [1 # 2; 0; 1 # 4]%Q
  = mapM (fun p => vs ← bilinear_interpolate field22 [p.1] [p.2]; vs !! 0%nat)
      (zip [1 # 2; 0; 1 # 3]%Q [1 # 2; 0; 1 # 4]%Q).
Proof.
  apply (batch_elementwise field22 [1 # 2; 0; 1 # 3]%Q [1 # 2; 0; 1 # 4]%Q).
  reflexivity.
Defined.

(** ** The store-passing embedding *)

Section StoreFacts.

Import Store.




Lemma get_int_run (l : nat) (a : list Z) {B} (k : list Z -> M B) (w : world) :
  heap w !! l = Some (IntArray a) -> (v <~ get_int l ;; k v) w = k a w.
Proof. intros H. unfold bind, get_int. by rewrite H. Qed.








(** Given an [out] array the same call overwrites it: the primitives can
    change an existing object, the sampler never asks them to. *)
Lemma clip_out_overwrites x lo hi a w :
  heap w !! x = Some (IntArray a) ->
  (clip x lo hi (Some x) w).1 = Some x /\
  heap (clip x lo hi (Some x) w).2 !! x = Some (IntArray (Np.clip a lo hi)).
Proof.
  intros H. unfold clip.
  rewrite (get_int_run x a) by done. rewrite (get_int_run x a) by done.
  rewrite decide_True by done. unfold store. rewrite H. simpl.
  by rewrite lookup_insert_eq.
Qed.









End StoreFacts.

Section StoreSampler.






End StoreSampler.





(** ** The point picker *)

Section PickerFacts.

Import Picker.

Lemma call_outside (w : World) (ev : Event) :
  inaxes ev ≠ Some (ax_id (ax (self w))) -> call w ev = w.
Proof. intros H. unfold call. by rewrite decide_True. Qed.

Lemma call_inside_count (w : World) (ev : Event) :
  inaxes ev = Some (ax_id (ax (self w))) ->
  count (call w ev) = S (count w) /\
  length (ys (self (call w ev))) = S (length (ys (self w))) /\
  npoints (self (call w ev)) = npoints (self w) /\
  cid (self (call w ev)) = cid (self w) /\
  (npoints (self w) <= Z.of_nat (S (count w)) -> ~ connected (call w ev)) /\
  (~ npoints (self w) <= Z.of_nat (S (count w)) ->
   callbacks (call w ev) = callbacks w).
Proof.
  intros H. unfold call, count, connected.
  rewrite decide_False by (by intros []).
  simpl. rewrite !length_app. simpl.
  replace (length (xs (self w)) + 1)%nat with (S (length (xs (self w)))) by lia.
  replace (length (ys (self w)) + 1)%nat with (S (length (ys (self w)))) by lia.
  repeat split; try done.
  - intros Hn. rewrite decide_True by done.
    intros [_ Hc]%elem_of_difference. by apply Hc, elem_of_singleton.
  - intros Hn. by rewrite decide_False.
Qed.

Lemma init_inv view a n registered : picker_inv n (init view a n registered).
Proof.
  unfold picker_inv, count. simpl. repeat split; auto. lia.
Qed.

Lemma step_inv n w ev w' : picker_inv n w -> step w ev w' -> picker_inv n w'.
Proof.
  intros (Hn & Hlen & Hconn & Hbound) Hstep.
  inversion Hstep as [w0 ev0 Hc | w0 ev0 Hc]; subst; [|done].
  destruct (decide (inaxes ev = Some (ax_id (ax (self w))))) as [Hin | Hout];
    [|by rewrite call_outside].
  destruct (call_inside_count w ev Hin)
    as (Hcount & Hys & Hnp & Hcid & Hstop & Hkeep).
  unfold picker_inv. fold (count (call w ev)). rewrite Hcount, Hys, Hnp.
  split; [done|]. split; [unfold count in *; lia|]. split.
  - intros Hc'. right.
    destruct (decide (npoints (self w) <= Z.of_nat (S (count w)))) as [Hge|Hlt];
      [by apply Hstop in Hge | lia].
  - intros H1. specialize (Hconn Hc). lia.
Qed.

Lemma run_inv n w evs w' : picker_inv n w -> run w evs w' -> picker_inv n w'.
Proof.
  intros Hinv Hrun. induction Hrun as [w | w ev w1 evs w2 Hstep _ IH]; [done|].
  apply IH. by eapply step_inv.
Qed.




End PickerFacts.

Section PickerClosedForm.

Variables (plot_view : Picker.Axes -> Q * Q) (a : Picker.Axes) (n : Z)
  (registered : gset nat).

Let k := Z.to_nat (Z.max n 1).

Lemma picker_after_connected (clicks : list Picker.Event) :
  Picker.connected (picker_after plot_view a n registered clicks)
  <-> (length clicks < k)%nat.
Proof.
  unfold Picker.connected, picker_after. simpl. fold k.
  pose proof (is_fresh registered) as Hf.
  case_decide as Hlt; split; try done.
  intros _. apply elem_of_union_l. by apply elem_of_singleton.
Qed.

Lemma picker_after_nil :
  Picker.init plot_view a n registered = picker_after plot_view a n registered [].
Proof.
  unfold Picker.init, picker_after. fold k. simpl.
  rewrite !take_nil. simpl.
  rewrite decide_True by (subst k; lia). done.
Qed.

Lemma picker_after_full (clicks : list Picker.Event) (ev : Picker.Event) :
  (k <= length clicks)%nat ->
  picker_after plot_view a n registered (clicks ++ [ev])
  = picker_after plot_view a n registered clicks.
Proof.
  intros Hge. unfold picker_after. fold k.
  rewrite !fmap_app, !take_app_le by (by rewrite length_fmap).
  rewrite !length_app. simpl.
  rewrite (decide_False (P := (length clicks + 1 < k)%nat)) by lia.
  rewrite (decide_False (P := (length clicks < k)%nat)) by lia.
  rewrite (decide_False (P := (clicks ++ [ev] = []))) by (by destruct clicks).
  rewrite (decide_False (P := (clicks = [])));
    [done | intros ->; simpl in Hge; subst k; lia].
Qed.

Lemma picker_after_call (clicks : list Picker.Event) (ev : Picker.Event) :
  in_axes a ev -> (length clicks < k)%nat ->
  Picker.call (picker_after plot_view a n registered clicks) ev
  = picker_after plot_view a n registered (clicks ++ [ev]).
Proof.
  intros Hin Hlt. unfold Picker.call, picker_after. fold k. simpl.
  rewrite decide_False by (intros H; by apply H).
  rewrite !fmap_app. simpl.
  rewrite !take_ge by (rewrite ?length_app, !length_fmap; simpl; lia).
  rewrite !length_app, !length_fmap. simpl.
  rewrite (decide_True (P := (length clicks < k)%nat)) by done.
  rewrite (decide_False (P := (clicks ++ [ev] = []))) by (by destruct clicks).
  f_equal.
  - rewrite zip_with_app by (by rewrite !length_fmap).
    rewrite imap_app. simpl. unfold picker_label at 3. simpl.
    rewrite length_zip_with, !length_fmap.
    do 3 f_equal. lia.
  - lia.
  - pose proof (is_fresh registered) as Hf.
    destruct (decide (n <= Z.of_nat (length clicks + 1))) as [Hstop | Hgo].
    + rewrite decide_False by (subst k; lia).
      apply set_eq. intros c.
      rewrite elem_of_difference, elem_of_union, !elem_of_singleton.
      split; [intros [[-> | H] Hne]; done | intros H; split; [by right|]].
      intros ->. by destruct Hf.
    + rewrite decide_True by (subst k; lia). done.
Qed.

(** The handler, event after event, computes the closed form. *)
Lemma deliver_all_closed_form (evs : list Picker.Event) :
  foldl Picker.deliver (Picker.init plot_view a n registered) evs
  = picker_after plot_view a n registered (filter (in_axes a) evs).
Proof.
  induction evs as [|ev evs IH] using rev_ind; [apply picker_after_nil|].
  rewrite foldl_snoc, IH, filter_app. unfold Picker.deliver.
  set (clicks := filter (in_axes a) evs).
  destruct (decide (in_axes a ev)) as [Hin | Hout].
  - rewrite filter_cons_True, filter_nil by done.
    case_decide as Hc.
    + apply picker_after_call; [done|]. by apply picker_after_connected.
    + symmetry. apply picker_after_full.
      rewrite picker_after_connected in Hc. lia.
  - rewrite filter_cons_False, filter_nil, app_nil_r by done.
    case_decide as Hc; [|done].
    apply call_outside. by simpl.
Qed.

End PickerClosedForm.




(** C10: a click whose [inaxes] is not the picker's axes changes nothing:
    the recorded coordinates, the plotted points, the texts, the redraw
    count and the connection are all as before. *)
Theorem click_outside_dropped (w : Picker.World) (ev : Picker.Event) :
  Picker.inaxes ev ≠ Some (Picker.ax_id (Picker.ax (Picker.self w))) ->
  Picker.call w ev = w /\
  Picker.count (Picker.call w ev) = Picker.count w /\
  (Picker.connected (Picker.call w ev) <-> Picker.connected w).
Proof.
  intros H. rewrite (call_outside w ev H). done.
Qed.

Lemma click_outside_dropped_witness :
  Picker.call (Picker.init Picker.view_kept Picker.axes7 2 ∅) Picker.click_outside
  = Picker.init Picker.view_kept Picker.axes7 2 ∅.
Proof.
  refine (proj1 (click_outside_dropped (Picker.init Picker.view_kept Picker.axes7 2 ∅)
                   Picker.click_outside _)).
  simpl. discriminate.
Defined.

(** * Further properties of the sampler *)

(** ** Inside the grid *)

Lemma inner_floor_closed (n : Z) (t : Q) :
  (0 <= t)%Q -> (t < inject_Z (n - 1))%Q -> 0 <= Qfloor t <= n - 2.
Proof.
  intros Hlo Hhi. split.
  - by apply (Qfloor_ge 0).
  - apply Qfloor_lt in Hhi. lia.
Qed.

(** For [0 <= x < W-1] and [0 <= y < H-1] clipping is the identity on the
    four neighbour indices, and the call computes the sum the unclamped
    weights give. *)
Theorem inside_matches_unclamped image (x y : Q) :
  (0 <= x)%Q -> (x < inject_Z (Np.shape1 image - 1))%Q ->
  (0 <= y)%Q -> (y < inject_Z (Np.shape0 image - 1))%Q ->
  bilinear_interpolate image [x] [y]
  = (v ← spec_sample_at image x y; Some [v]).
Proof.
  intros Hx0 Hx1 Hy0 Hy1.
  rewrite bilinear_interpolate_point, interp_at_inner;
    auto using inner_floor_closed.
Qed.

Lemma inside_matches_unclamped_witness :
  bilinear_interpolate plane33 [0%Q] [1 # 3]
  = (v ← spec_sample_at plane33 0 (1 # 3); Some [v]).
Proof.
  apply (inside_matches_unclamped plane33 0 (1 # 3));
    vm_compute; first [reflexivity | discriminate].
Defined.

(** Grid points that have a right and a lower neighbour are sampled
    exactly. *)
Theorem grid_exact_inner image (xi yi : Z) :
  Np.rectangular image ->
  0 <= xi <= Np.shape1 image - 2 ->
  0 <= yi <= Np.shape0 image - 2 ->
  exists v w,
    bilinear_interpolate image [inject_Z xi] [inject_Z yi] = Some [v] /\
    Np.item image yi xi = Some w /\ (v == w)%Q.
Proof.
  intros Hrect Hx Hy.
  destruct (interp_at_grid_inner image xi yi Hrect Hx Hy) as (v & w & Hv & Hw & E).
  exists v, w. by rewrite bilinear_interpolate_point, Hv.
Qed.

Lemma grid_exact_inner_witness :
  exists v w,
    bilinear_interpolate plane33 [inject_Z 1] [inject_Z 0] = Some [v] /\
    Np.item plane33 0 1 = Some w /\ (v == w)%Q.
Proof.
  apply (grid_exact_inner plane33 1 0).
  - by repeat constructor.
  - vm_compute. split; discriminate.
  - vm_compute. split; discriminate.
Defined.

(** A sum of four values weighted by [(1-s)(1-t)], [(1-s)t], [s(1-t)] and
    [st] with [0 <= s, t <= 1] lies between any bounds of the values. *)
Lemma bilinear_mix_bounds (a b c d lo hi s t : Q) :
  (lo <= a <= hi)%Q -> (lo <= b <= hi)%Q ->
  (lo <= c <= hi)%Q -> (lo <= d <= hi)%Q ->
  (0 <= s <= 1)%Q -> (0 <= t <= 1)%Q ->
  (lo <= a * ((1 - s) * (1 - t)) + b * ((1 - s) * t)
         + c * (s * (1 - t)) + d * (s * t) <= hi)%Q.
Proof.
  intros [Ha Ha'] [Hb Hb'] [Hc Hc'] [Hd Hd'] [Hs Hs'] [Ht Ht'].
  assert (0 <= (1 - s) * (1 - t))%Q as W1 by (apply Qmult_le_0_compat; lra).
  assert (0 <= (1 - s) * t)%Q as W2 by (apply Qmult_le_0_compat; lra).
  assert (0 <= s * (1 - t))%Q as W3 by (apply Qmult_le_0_compat; lra).
  assert (0 <= s * t)%Q as W4 by (apply Qmult_le_0_compat; lra).
  assert ((1 - s) * (1 - t) + (1 - s) * t + s * (1 - t) + s * t == 1)%Q
    as W by ring.
  set (w1 := ((1 - s) * (1 - t))%Q) in *. set (w2 := ((1 - s) * t)%Q) in *.
  set (w3 := (s * (1 - t))%Q) in *. set (w4 := (s * t)%Q) in *.
  assert (0 <= (a - lo) * w1)%Q by (apply Qmult_le_0_compat; lra).
  assert (0 <= (b - lo) * w2)%Q by (apply Qmult_le_0_compat; lra).
  assert (0 <= (c - lo) * w3)%Q by (apply Qmult_le_0_compat; lra).
  assert (0 <= (d - lo) * w4)%Q by (apply Qmult_le_0_compat; lra).
  assert (0 <= (hi - a) * w1)%Q by (apply Qmult_le_0_compat; lra).
  assert (0 <= (hi - b) * w2)%Q by (apply Qmult_le_0_compat; lra).
  assert (0 <= (hi - c) * w3)%Q by (apply Qmult_le_0_compat; lra).
  assert (0 <= (hi - d) * w4)%Q by (apply Qmult_le_0_compat; lra).
  assert (a * w1 + b * w2 + c * w3 + d * w4 - lo
          == (a - lo) * w1 + (b - lo) * w2 + (c - lo) * w3 + (d - lo) * w4)%Q
    as E1.
  { transitivity (a * w1 + b * w2 + c * w3 + d * w4
                  - lo * (w1 + w2 + w3 + w4))%Q; [|ring].
    rewrite W. ring. }
  assert (hi - (a * w1 + b * w2 + c * w3 + d * w4)
          == (hi - a) * w1 + (hi - b) * w2 + (hi - c) * w3 + (hi - d) * w4)%Q
    as E2.
  { transitivity (hi * (w1 + w2 + w3 + w4)
                  - (a * w1 + b * w2 + c * w3 + d * w4))%Q; [|ring].
    rewrite W. ring. }
  split; lra.
Qed.

(** Range preservation: for [0 <= x < W-1] and [0 <= y < H-1] the sample
    lies between any two bounds of the cells of the field. *)
Theorem inside_between_bounds image (lo hi x y : Q) :
  Np.rectangular image ->
  (forall r c v, Np.item image r c = Some v -> (lo <= v <= hi)%Q) ->
  (0 <= x)%Q -> (x < inject_Z (Np.shape1 image - 1))%Q ->
  (0 <= y)%Q -> (y < inject_Z (Np.shape0 image - 1))%Q ->
  exists v, bilinear_interpolate image [x] [y] = Some [v] /\ (lo <= v <= hi)%Q.
Proof.
  intros Hrect Hcells Hx0 Hx1 Hy0 Hy1. apply point_result.
  pose proof (inner_floor_closed _ _ Hx0 Hx1) as Fx.
  pose proof (inner_floor_closed _ _ Hy0 Hy1) as Fy.
  destruct (interp_at_corners image x y)
    as (Ia & Ib & Ic & Id & Ha & Hb & Hc & Hd & ->); [done | lia | lia |].
  cbv zeta in *. rewrite !clip1_id in * by lia.
  apply Hcells in Ha, Hb, Hc, Hd.
  eexists; split; [reflexivity|].
  destruct (Qfloor_le_lt x) as [Lx Ux], (Qfloor_le_lt y) as [Ly Uy].
  pose proof (bilinear_mix_bounds Ia Ib Ic Id lo hi
                (x - inject_Z (Qfloor x)) (y - inject_Z (Qfloor y))
                Ha Hb Hc Hd) as B.
  unfold Np.int_sub_float, Np.float_sub_int. rewrite !inject_Z_plus.
  assert (forall p q : Q, (p == q)%Q -> (lo <= q <= hi)%Q -> (lo <= p <= hi)%Q)
    as Hcompat by (intros p q ->; done).
  eapply Hcompat; [|apply B; split; lra].
  change (inject_Z 1) with 1%Q. ring.
Qed.

Lemma field22_cells (r c : Z) (v : Q) :
  Np.item field22 r c = Some v -> (0 <= v <= 3)%Q.
Proof.
  unfold Np.item, Np.norm_index.
  change (Np.shape0 field22) with 2. change (Np.shape1 field22) with 2.
  intros H.
  assert (forall n : Z, 0 <= n < 2 -> n = 0 \/ n = 1) as E0 by lia.
  assert (forall n : Z, - (2) <= n < 0 -> n = -1 \/ n = -2) as E1 by lia.
  repeat case_decide; simpl in H; try discriminate;
    repeat match goal with
      | H' : 0 <= _ < 2 |- _ => apply E0 in H'; destruct H' as [-> | ->]
      | H' : - (2) <= _ < 0 |- _ => apply E1 in H'; destruct H' as [-> | ->]
      end;
    injection H as <-; split; discriminate.
Qed.

Lemma inside_between_bounds_witness :
  exists v, bilinear_interpolate field22 [1 # 3] [1 # 4] = Some [v] /\
            (0 <= v <= 3)%Q.
Proof.
  apply (inside_between_bounds field22 0 3 (1 # 3) (1 # 4)).
  - apply rectangular_field22.
  - apply field22_cells.
  - vm_compute. discriminate.
  - vm_compute. reflexivity.
  - vm_compute. discriminate.
  - vm_compute. reflexivity.
Defined.

(** On a grid row (integer [y] with a row below it) the sample is the
    linear interpolation of the two cells of that row left and right of
    [x]; the row below does not contribute. *)
Theorem along_grid_row image (x : Q) (yi : Z) :
  Np.rectangular image ->
  (0 <= x)%Q -> (x < inject_Z (Np.shape1 image - 1))%Q ->
  0 <= yi <= Np.shape0 image - 2 ->
  exists v l r,
    bilinear_interpolate image [x] [inject_Z yi] = Some [v] /\
    Np.item image yi (Qfloor x) = Some l /\
    Np.item image yi (Qfloor x + 1) = Some r /\
    (v == l * (inject_Z (Qfloor x) + 1 - x) + r * (x - inject_Z (Qfloor x)))%Q.
Proof.
  intros Hrect Hx0 Hx1 Hy.
  pose proof (inner_floor_closed _ _ Hx0 Hx1) as Fx.
  destruct (interp_at_corners image x (inject_Z yi))
    as (Ia & Ib & Ic & Id & Ha & Hb & Hc & Hd & Hv); [done | lia | lia |].
  cbv zeta in *. rewrite !Qfloor_Z in *. rewrite !clip1_id in * by lia.
  eexists _, Ia, Ic.
  split; [by rewrite bilinear_interpolate_point, Hv|].
  split; [done|]. split; [done|].
  unfold Np.int_sub_float, Np.float_sub_int.
  rewrite !inject_Z_plus. change (inject_Z 1) with 1%Q. ring.
Qed.

Lemma along_grid_row_witness :
  exists v l r,
    bilinear_interpolate plane33 [1 # 2] [inject_Z 1] = Some [v] /\
    Np.item plane33 1 (Qfloor (1 # 2)) = Some l /\
    Np.item plane33 1 (Qfloor (1 # 2) + 1) = Some r /\
    (v == l * (inject_Z (Qfloor (1 # 2)) + 1 - (1 # 2))
          + r * ((1 # 2) - inject_Z (Qfloor (1 # 2))))%Q.
Proof.
  apply (along_grid_row plane33 (1 # 2) 1).
  - by repeat constructor.
  - vm_compute. discriminate.
  - vm_compute. reflexivity.
  - vm_compute. split; discriminate.
Defined.

(** On a grid column (integer [x] with a column to its right) the sample is
    the linear interpolation of the two cells of that column above and
    below [y]. *)
Theorem along_grid_column image (xi : Z) (y : Q) :
  Np.rectangular image ->
  0 <= xi <= Np.shape1 image - 2 ->
  (0 <= y)%Q -> (y < inject_Z (Np.shape0 image - 1))%Q ->
  exists v t b,
    bilinear_interpolate image [inject_Z xi] [y] = Some [v] /\
    Np.item image (Qfloor y) xi = Some t /\
    Np.item image (Qfloor y + 1) xi = Some b /\
    (v == t * (inject_Z (Qfloor y) + 1 - y) + b * (y - inject_Z (Qfloor y)))%Q.
Proof.
  intros Hrect Hx Hy0 Hy1.
  pose proof (inner_floor_closed _ _ Hy0 Hy1) as Fy.
  destruct (interp_at_corners image (inject_Z xi) y)
    as (Ia & Ib & Ic & Id & Ha & Hb & Hc & Hd & Hv); [done | lia | lia |].
  cbv zeta in *. rewrite !Qfloor_Z in *. rewrite !clip1_id in * by lia.
  eexists _, Ia, Ib.
  split; [by rewrite bilinear_interpolate_point, Hv|].
  split; [done|]. split; [done|].
  unfold Np.int_sub_float, Np.float_sub_int.
  rewrite !inject_Z_plus. change (inject_Z 1) with 1%Q. ring.
Qed.

Lemma along_grid_column_witness :
  exists v t b,
    bilinear_interpolate plane33 [inject_Z 0] [5 # 4] = Some [v] /\
    Np.item plane33 (Qfloor (5 # 4)) 0 = Some t /\
    Np.item plane33 (Qfloor (5 # 4) + 1) 0 = Some b /\
    (v == t * (inject_Z (Qfloor (5 # 4)) + 1 - (5 # 4))
          + b * ((5 # 4) - inject_Z (Qfloor (5 # 4))))%Q.
Proof.
  apply (along_grid_column plane33 0 (5 # 4)).
  - by repeat constructor.
  - vm_compute. split; discriminate.
  - vm_compute. discriminate.
  - vm_compute. reflexivity.
Defined.

(** ** Empty fields, empty batches and shapes that do not fit *)

Lemma item_empty_axis image (r c : Z) :
  Np.shape0 image = 0 \/ Np.shape1 image = 0 ->
  Np.item image (Np.clip1 r 0 (Np.shape0 image - 1))
    (Np.clip1 c 0 (Np.shape1 image - 1)) = None.
Proof.
  intros H. unfold Np.item.
  destruct (Np.norm_index (Np.shape0 image) _) as [i|] eqn:Ei; [simpl|done].
  destruct (Np.norm_index (Np.shape1 image) _) as [j|] eqn:Ej; [exfalso|done].
  unfold Np.norm_index, Np.clip1 in *.
  repeat case_decide; try discriminate; lia.
Qed.

(** On a field without rows or without columns every lookup is out of
    bounds: the call raises for any non-empty batch, and returns the empty
    array for the empty batch. *)
Theorem empty_field_raises image (xs ys : list Q) :
  Np.shape0 image = 0 \/ Np.shape1 image = 0 ->
  length xs = length ys ->
  bilinear_interpolate image xs ys = if decide (xs = []) then Some [] else None.
Proof.
  intros Hempty Hlen. rewrite bilinear_interpolate_zip by done.
  destruct xs as [|x xs], ys as [|y ys]; try discriminate; [done|].
  rewrite decide_False by done.
  apply mapM_None_2. constructor. cbn [fst snd].
  unfold interp_at. cbv zeta. by rewrite !item_empty_axis.
Qed.

Lemma empty_field_raises_witness :
  bilinear_interpolate [[]; []] [1 # 2; 3]%Q [0; 1]%Q = None.
Proof.
  apply (empty_field_raises [[]; []] [1 # 2; 3]%Q [0; 1]%Q).
  - right. reflexivity.
  - reflexivity.
Defined.

Lemma broadcast_mismatch {A B} (a : list A) (b : list B) :
  length a ≠ length b -> length a ≠ 1%nat -> length b ≠ 1%nat ->
  Np.broadcast a b = None.
Proof.
  intros Hne Ha Hb. unfold Np.broadcast. rewrite decide_False by done.
  destruct a as [|u [|u' a]], b as [|v [|v' b]]; simpl in *; congruence.
Qed.

(** Coordinate arrays of different lengths, none of length one, do not
    broadcast: the call raises, whatever the field. *)
Theorem length_mismatch_raises image (xs ys : list Q) :
  length xs ≠ length ys -> length xs ≠ 1%nat -> length ys ≠ 1%nat ->
  bilinear_interpolate image xs ys = None.
Proof.
  intros Hne Hx Hy. unfold bilinear_interpolate. cbv zeta.
  match goal with
  | |- (?m ≫= _) = None => assert (m = None) as ->; [|done]
  end.
  unfold Np.fancy_index.
  rewrite broadcast_mismatch; [done| | |];
    unfold Np.clip, Np.astype_int, Np.floor; rewrite !length_fmap; congruence.
Qed.

Lemma length_mismatch_raises_witness :
  bilinear_interpolate field22 [0; 1 # 2; 1]%Q [0; 1 # 2]%Q = None.
Proof.
  apply (length_mismatch_raises field22 [0; 1 # 2; 1]%Q [0; 1 # 2]%Q);
    simpl; lia.
Defined.

(** ** A coordinate array of length one is stretched over the other *)

Section Stretch.

Context {A B C : Type}.

Lemma broadcast_singleton_l (u : A) (b : list B) :
  Np.broadcast [u] b = Some ((fun v => (u, v)) <$> b).
Proof.
  unfold Np.broadcast. case_decide as E; [|done].
  by destruct b as [|v [|v' b]].
Qed.

Lemma broadcast_singleton_r (a : list A) (v : B) :
  Np.broadcast a [v] = Some ((fun u => (u, v)) <$> a).
Proof.
  unfold Np.broadcast. case_decide as E.
  - by destruct a as [|u [|u' a]].
  - by destruct a as [|u [|u' a]].
Qed.

Lemma binop_singleton_l (f : A -> B -> C) (u : A) (b : list B) :
  Np.binop f [u] b = Some (f u <$> b).
Proof.
  unfold Np.binop. rewrite broadcast_singleton_l. simpl.
  by rewrite <- list_fmap_compose.
Qed.

Lemma binop_singleton_r (f : A -> B -> C) (a : list A) (v : B) :
  Np.binop f a [v] = Some ((fun u => f u v) <$> a).
Proof.
  unfold Np.binop. rewrite broadcast_singleton_r. simpl.
  by rewrite <- list_fmap_compose.
Qed.

Lemma binop_fmap_l (f : A -> B -> C) (g : B -> A) (l : list B) :
  Np.binop f (g <$> l) l = Some ((fun t => f (g t) t) <$> l).
Proof.
  pose proof (binop_fmap f g id l) as H. by rewrite list_fmap_id in H.
Qed.

Lemma binop_fmap_r (f : A -> B -> C) (g : A -> B) (l : list A) :
  Np.binop f l (g <$> l) = Some ((fun t => f t (g t)) <$> l).
Proof.
  pose proof (binop_fmap f id g l) as H. by rewrite list_fmap_id in H.
Qed.

End Stretch.

Lemma fancy_index_singleton_r {T} image (g : T -> Z) (c : Z) (l : list T) :
  Np.fancy_index image (g <$> l) [c]
  = mapM (fun t => Np.item image (g t) c) l.
Proof.
  unfold Np.fancy_index. rewrite broadcast_singleton_r. simpl.
  rewrite <- list_fmap_compose.
  induction l as [|t l IH]; [done|].
  change (mapM (fun p : Z * Z => Np.item image p.1 p.2)
            ((fun u => (u, c)) ∘ g <$> t :: l))
    with (v ← Np.item image (g t) c;
          k ← mapM (fun p : Z * Z => Np.item image p.1 p.2)
                ((fun u => (u, c)) ∘ g <$> l);
          Some (v :: k)).
  by rewrite IH.
Qed.

Lemma fancy_index_singleton_l {T} image (r : Z) (g : T -> Z) (l : list T) :
  Np.fancy_index image [r] (g <$> l)
  = mapM (fun t => Np.item image r (g t)) l.
Proof.
  unfold Np.fancy_index. rewrite broadcast_singleton_l. simpl.
  rewrite <- list_fmap_compose.
  induction l as [|t l IH]; [done|].
  change (mapM (fun p : Z * Z => Np.item image p.1 p.2)
            ((fun v => (r, v)) ∘ g <$> t :: l))
    with (v ← Np.item image r (g t);
          k ← mapM (fun p : Z * Z => Np.item image p.1 p.2)
                ((fun v => (r, v)) ∘ g <$> l);
          Some (v :: k)).
  by rewrite IH.
Qed.

Local Ltac singletons :=
  repeat match goal with
    | |- context [?f <$> [?a]] => change (f <$> [a]) with [f a]
    end.

Local Ltac next_stretched Ia E F :=
  match goal with
  | |- (mapM ?f ?l ≫= _) = _ =>
      destruct (mapM f l) as [Ia|] eqn:E; cbn [mbind option_bind];
      [ pose proof (mapM_is_Some_1 _ _ (ex_intro _ _ E)) as F;
        apply (mapM_Some_default 0%Q) in E
      | symmetry; apply mapM_None_2; apply mapM_None_1 in E;
        eapply Exists_impl; [exact E|]; intros p Hp;
        unfold interp_at, compose in *; simpl in *;
        item_cases; congruence ]
  end.

Local Ltac stretch_ops :=
  repeat (first [ rewrite binop_fmap | rewrite binop_fmap_l
                | rewrite binop_fmap_r | rewrite binop_singleton_l
                | rewrite binop_singleton_r ];
          cbn [mbind option_bind]; rewrite <- ?list_fmap_compose;
          singletons).

Local Ltac stretch_finish Fa Fb Fc Fd :=
  symmetry; apply mapM_Some_2, Forall2_fmap_r, Forall_Forall2_diag;
  rewrite Forall_forall in *; intros p Hp;
  destruct (Fa p Hp) as [a Ha], (Fb p Hp) as [b Hb],
    (Fc p Hp) as [c Hc], (Fd p Hp) as [d Hd];
  unfold interp_at, compose in *; simpl in *;
  by rewrite Ha, Hb, Hc, Hd.

Lemma bilinear_interpolate_stretch_x image (x : Q) (ys : list Q) :
  bilinear_interpolate image [x] ys = mapM (fun y => interp_at image x y) ys.
Proof.
  unfold bilinear_interpolate.
  rewrite !astype_int_floor. unfold Np.add_scalar, Np.clip.
  rewrite <- !list_fmap_compose. singletons.
  rewrite !fancy_index_singleton_r.
  next_stretched Ia Ea Fa. next_stretched Ib Eb Fb.
  next_stretched Ic Ec Fc. next_stretched Id Ed Fd.
  subst Ia Ib Ic Id.
  stretch_ops.
  stretch_finish Fa Fb Fc Fd.
Qed.

Lemma bilinear_interpolate_stretch_y image (xs : list Q) (y : Q) :
  bilinear_interpolate image xs [y] = mapM (fun x => interp_at image x y) xs.
Proof.
  unfold bilinear_interpolate.
  rewrite !astype_int_floor. unfold Np.add_scalar, Np.clip.
  rewrite <- !list_fmap_compose. singletons.
  rewrite !fancy_index_singleton_l.
  next_stretched Ia Ea Fa. next_stretched Ib Eb Fb.
  next_stretched Ic Ec Fc. next_stretched Id Ed Fd.
  subst Ia Ib Ic Id.
  stretch_ops.
  stretch_finish Fa Fb Fc Fd.
Qed.

Lemma interp_at_as_call image (x y : Q) :
  interp_at image x y = (vs ← bilinear_interpolate image [x] [y]; vs !! 0%nat).
Proof.
  rewrite bilinear_interpolate_point. by destruct (interp_at image x y).
Qed.

(** Broadcasting: a single x paired with n values of y (or n values of x
    with a single y) is sampled as the n one-point calls, in order; no
    length is rejected. *)
Theorem length_one_is_stretched image (t : Q) (l : list Q) :
  bilinear_interpolate image [t] l
  = mapM (fun y => vs ← bilinear_interpolate image [t] [y]; vs !! 0%nat) l /\
  bilinear_interpolate image l [t]
  = mapM (fun x => vs ← bilinear_interpolate image [x] [t]; vs !! 0%nat) l.
Proof.
  rewrite bilinear_interpolate_stretch_x, bilinear_interpolate_stretch_y.
  split; apply mapM_ext; intros u; apply interp_at_as_call.
Qed.

(** * Further properties of the point picker *)

(** On an empty axes that autoscales around the placeholder point the
    offset of the labels is 0.0055, whatever view the axes had before. *)
Lemma toffset_autoscaled (a : Picker.Axes) (n : Z) (registered : gset nat) :
  (Picker.toffset (Picker.self (Picker.init Picker.view_of_origin a n registered))
   == 55 # 10000)%Q.
Proof. reflexivity. Qed.

(** What the picker has recorded is the first [max npoints 1] clicks made
    inside its axes while the figure was shown, in the order they were
    made; clicks elsewhere and later clicks leave no trace. *)
Theorem select_k_points_records (plot_view : Picker.Axes -> Q * Q)
    (a : Picker.Axes) (npoints : Z)
    (registered : gset nat) (shown : list Picker.Event) :
  let w := selectpoints (select_k_points plot_view a npoints registered shown) in
  let clicks := filter (in_axes a) shown in
  let k := Z.to_nat (Z.max npoints 1) in
  Picker.xs (Picker.self w) = take k (Picker.xdata <$> clicks) /\
  Picker.ys (Picker.self w) = take k (Picker.ydata <$> clicks) /\
  Picker.count w = (k `min` length clicks)%nat.
Proof.
  unfold select_k_points. cbn [selectpoints].
  rewrite deliver_all_closed_form. unfold Picker.count. simpl.
  split; [done|]. split; [done|].
  by rewrite length_take, length_fmap.
Qed.

(** Every recorded point has its label: the i-th label (counting from 1)
    carries the number i and sits at the i-th point shifted right by
    [toffset], which is 5% of the width the view had when [__init__] read
    it, that is after the placeholder point was plotted (and the view
    possibly rescaled by it); the canvas has been redrawn once per recorded
    point. *)
Theorem select_k_points_labels (plot_view : Picker.Axes -> Q * Q)
    (a : Picker.Axes) (npoints : Z)
    (registered : gset nat) (shown : list Picker.Event) :
  let w := selectpoints (select_k_points plot_view a npoints registered shown) in
  let s := Picker.self w in
  Picker.texts w
  = imap (picker_label (Picker.toffset s)) (zip (Picker.xs s) (Picker.ys s)) /\
  Picker.toffset s = ((5 # 100) * ((plot_view a).2 - (plot_view a).1))%Q /\
  length (Picker.texts w) = Picker.count w /\
  Picker.draws w = Picker.count w.
Proof.
  unfold select_k_points. cbn [selectpoints].
  rewrite deliver_all_closed_form. unfold Picker.count. simpl.
  split; [done|]. split; [done|]. split; [|done].
  rewrite length_imap, length_zip_with, !length_take, !length_fmap. lia.
Qed.

(** The plotted line holds exactly the recorded points, except before the
    first recorded click, when it still holds the placeholder point (0, 0)
    that [__init__] plots. *)
Theorem select_k_points_plot (plot_view : Picker.Axes -> Q * Q)
    (a : Picker.Axes) (npoints : Z)
    (registered : gset nat) (shown : list Picker.Event) :
  let w := selectpoints (select_k_points plot_view a npoints registered shown) in
  let s := Picker.self w in
  Picker.pts s = if decide (Picker.count w = 0%nat) then ([0%Q], [0%Q])
                 else (Picker.xs s, Picker.ys s).
Proof.
  unfold select_k_points. cbn [selectpoints].
  rewrite deliver_all_closed_form. unfold Picker.count. simpl.
  set (clicks := filter (in_axes a) shown).
  rewrite length_take, length_fmap.
  destruct clicks as [|ev clicks]; simpl.
  - rewrite decide_True by lia. done.
  - rewrite decide_False by lia. done.
Qed.

(** The picker listens exactly while it holds fewer than [max npoints 1]
    points, and it only ever adds and removes its own callback id: the
    callbacks the canvas had before are all still registered, and no
    other. *)
Theorem select_k_points_callbacks (plot_view : Picker.Axes -> Q * Q)
    (a : Picker.Axes) (npoints : Z)
    (registered : gset nat) (shown : list Picker.Event) :
  let w := selectpoints (select_k_points plot_view a npoints registered shown) in
  let k := Z.to_nat (Z.max npoints 1) in
  (Picker.connected w <-> (Picker.count w < k)%nat) /\
  (Picker.cid (Picker.self w) ∉ registered) /\
  (forall c, c ≠ Picker.cid (Picker.self w) ->
             (c ∈ Picker.callbacks w <-> c ∈ registered)).
Proof.
  unfold select_k_points. cbn [selectpoints].
  rewrite deliver_all_closed_form.
  split; [|split].
  - rewrite picker_after_connected. unfold Picker.count. simpl.
    rewrite length_take, length_fmap. lia.
  - simpl. apply is_fresh.
  - intros c Hc. simpl in *. case_decide; [|done].
    rewrite elem_of_union, elem_of_singleton.
    split; [intros [-> | Hreg]; done | by right].
Qed.

(** * The animation builder *)

Section MovieFacts.

Context {Frame : Type}.

Implicit Types (images : list Frame) (ani : Movie.FuncAnimation Frame).

Lemma getitem_in_range images (j : nat) (f : Frame) :
  images !! j = Some f -> Movie.getitem images (Z.of_nat j) = Some f.
Proof.
  intros Hj. unfold Movie.getitem.
  pose proof (lookup_lt_Some _ _ _ Hj) as Hlt.
  rewrite norm_index_in_bounds by lia. simpl. by rewrite Nat2Z.id.
Qed.

Lemma getitem_empty (i : Z) : Movie.getitem (@nil Frame) i = None.
Proof.
  unfold Movie.getitem, Np.norm_index. simpl.
  repeat case_decide; try done; lia.
Qed.

Lemma play_app ani (l1 l2 : list Z) :
  Movie.play ani (l1 ++ l2) = (ani' ← Movie.play ani l1; Movie.play ani' l2).
Proof.
  revert ani. induction l1 as [|i l1 IH]; intros ani; simpl; [done|].
  destruct (Movie.animate ani i) as [ani'|]; simpl; [apply IH | done].
Qed.

Lemma range_S (j : nat) : Movie.range (S j) = Movie.range j ++ [Z.of_nat j].
Proof. unfold Movie.range. by rewrite seq_S, fmap_app. Qed.

(** Drawing frames 0 .. j-1 of an animation never raises while [j] does
    not exceed the number of images, and leaves the last of them shown. *)
Lemma play_range ani (j : nat) :
  (j <= length (Movie.image_array ani))%nat ->
  exists ani',
    Movie.play ani (Movie.range j) = Some ani' /\
    Movie.image_array ani' = Movie.image_array ani /\
    Movie.frames ani' = Movie.frames ani /\
    Movie.fig ani' = Movie.fig ani /\
    match j with
    | O => Movie.im ani' = Movie.im ani
    | S i => Movie.image_array ani !! i = Some (Movie.im ani')
    end.
Proof.
  induction j as [|j IH]; intros Hj.
  - exists ani. by simpl.
  - destruct IH as (ani1 & Hplay & Himgs & Hfr & Hfig & _); [lia|].
    destruct (lookup_lt_is_Some_2 (Movie.image_array ani) j) as [f Hf]; [lia|].
    rewrite range_S, play_app, Hplay. simpl.
    unfold Movie.animate. rewrite Himgs, (getitem_in_range _ _ _ Hf). simpl.
    eexists. split; [reflexivity|]. simpl. by rewrite Hfr, Hfig.
Qed.

(** The frames [FuncAnimation] asks for, [range(len(image_array))], are all
    answered: drawing frames 0 to j of the animation that [display_movie]
    returned never raises, and leaves image j on the figure. *)
Theorem display_movie_plays images (plt plt' : Movie.Pyplot) ani (j : nat) :
  Movie.display_movie images plt = (Some ani, plt') ->
  (j < Movie.frames ani)%nat ->
  exists ani',
    Movie.play ani (Movie.range (S j)) = Some ani' /\
    images !! j = Some (Movie.im ani') /\
    Movie.image_array ani' = images /\
    Movie.frames ani' = length images.
Proof.
  unfold Movie.display_movie.
  destruct (Movie.getitem images 0) as [f|]; [|done].
  intros [= <- _]. simpl. intros Hj.
  destruct (play_range
              {| Movie.fig := S (Movie.figures plt); Movie.im := f;
                 Movie.image_array := images;
                 Movie.frames := length images |} (S j))
    as (ani' & Hplay & Himgs & Hfr & _ & Him); [simpl; lia|].
  exists ani'. simpl in *. by rewrite Hplay, Himgs, Hfr.
Qed.

End MovieFacts.

Lemma display_movie_plays_witness :
  exists ani',
    Movie.play {| Movie.fig := 1; Movie.im := field22;
                  Movie.image_array := [field22; field11; plane33];
                  Movie.frames := 3 |} (Movie.range 3) = Some ani' /\
    [field22; field11; plane33] !! 2%nat = Some (Movie.im ani') /\
    Movie.image_array ani' = [field22; field11; plane33] /\
    Movie.frames ani' = 3%nat.
Proof.
  apply (display_movie_plays [field22; field11; plane33] Movie.pyplot0
           {| Movie.figures := 1; Movie.animation_html := "jshtml" |}
           {| Movie.fig := 1; Movie.im := field22;
              Movie.image_array := [field22; field11; plane33];
              Movie.frames := 3 |} 2).
  - reflexivity.
  - simpl. lia.
Defined.
